(** * Dispatcher.js: request/response correlation, parameter validation
      and event fan-out of the protocol dispatcher.

    The development embeds [src/lib/Dispatcher.js] function by function.

    Modelling conventions.
    - JavaScript values that cross the dispatcher (parsed messages, parameter
      bags, the [optional] flag of a parameter) are JSON trees plus
      [undefined]; numbers are the integers (the decimal rendering of a
      number is its property key).
    - An object is read through its own properties.  Tables that are only
      indexed ([_resolvers], [_rejectors], [_domainListeners], the two outer
      levels of [_parameterMap]) are finite maps; the innermost parameter
      table is enumerated by [Object.keys]/[Object.entries], so it keeps its
      insertion order and is enumerated in the engine's order (array-index
      keys first, ascending, then the other keys in insertion order).
      Property names inherited from [Object.prototype] are outside the model.
    - The dispatcher's methods run in a monad threading [this], the calls
      made on collaborators (connection, promise callbacks, listeners) and a
      possible exception.  A callback is recorded when it is called; its body
      belongs to the environment and is taken to return normally.
    - The connection's ['message'] callback parses the text and passes the
      value to [_handleMessage]; a run records that call with the parsed
      value.
    - [_id] is a JavaScript number; increments are exact below 2^53, which no
      run reaches, so the counter is an unbounded integer. *)

From stdpp Require Import base gmap list strings fin_maps pretty.
From Stdlib Require Import ZArith Lia Ascii Sorted.

Local Open Scope Z_scope.
Local Open Scope string_scope.

(** ** JavaScript values *)

#[local] Set Warnings "-register-all".

Inductive jsval : Type :=
| VUndef
| VNull
| VBool (b : bool)
| VNum (n : Z)
| VStr (s : string)
| VArr (l : list jsval)
| VObj (l : list (string * jsval)).

(** ToBoolean. *)
Definition truthy (v : jsval) : bool :=
  match v with
  | VUndef | VNull => false
  | VBool b => b
  | VNum n => negb (Z.eqb n 0)
  | VStr s => negb (String.eqb s "")
  | VArr _ | VObj _ => true
  end.

(** ToString, which is also ToPropertyKey on these values. *)
Fixpoint to_string (v : jsval) : string :=
  match v with
  | VUndef => "undefined"
  | VNull => "null"
  | VBool true => "true"
  | VBool false => "false"
  | VNum n => pretty n
  | VStr s => s
  | VArr l =>
      String.concat ","
        (List.map (fun x => match x with
                            | VUndef | VNull => ""
                            | _ => to_string x
                            end) l)
  | VObj _ => "[object Object]"
  end.

(** ** Strings *)

(** [s.indexOf(c)] for a one-character needle: -1 when absent. *)
Fixpoint indexOf_from (c : ascii) (s : string) (i : Z) : Z :=
  match s with
  | EmptyString => -1
  | String a r => if Ascii.eqb a c then i else indexOf_from c r (i + 1)
  end.

Definition indexOf (s : string) (c : ascii) : Z := indexOf_from c s 0.

(** [s.substr(start, length)]; [None] is an omitted length. *)
Definition substr (s : string) (start : Z) (len : option Z) : string :=
  let size := Z.of_nat (String.length s) in
  let st := if Z.ltb start 0 then Z.max (size + start) 0 else Z.min start size in
  let n := match len with
           | None => size - st
           | Some l => Z.min (Z.max l 0) (size - st)
           end in
  String.substring (Z.to_nat st) (Z.to_nat n) s.

(** ** Objects with enumerable, ordered own properties *)

Definition is_digit (c : ascii) : bool :=
  ((48 <=? nat_of_ascii c) && (nat_of_ascii c <=? 57))%nat.

Fixpoint dec_value (acc : N) (s : string) : option N :=
  match s with
  | EmptyString => Some acc
  | String c r =>
      if is_digit c then dec_value (10 * acc + (N_of_ascii c - 48))%N r
      else None
  end.

(** The array index a property key denotes, if it is a canonical numeric
    string below 2^32 - 1. *)
Definition array_index (k : string) : option N :=
  match k with
  | EmptyString => None
  | String c r =>
      if Ascii.eqb c "0" then
        match r with EmptyString => Some 0%N | _ => None end
      else
        match dec_value 0 k with
        | Some n => if (n <? 2 ^ 32 - 1)%N then Some n else None
        | None => None
        end
  end.

(** Own properties in creation order. *)
Abbreviation obj V := (list (string * V)) (only parsing).

Section Obj.
Context {V : Type}.

Fixpoint obj_get (o : list (string * V)) (k : string) : option V :=
  match o with
  | [] => None
  | (k', v) :: r => if String.eqb k' k then Some v else obj_get r k
  end.

(** [o[k] = v]: an existing property keeps its place. *)
Fixpoint obj_set (k : string) (v : V) (o : list (string * V))
  : list (string * V) :=
  match o with
  | [] => [(k, v)]
  | (k', v') :: r =>
      if String.eqb k' k then (k, v) :: r else (k', v') :: obj_set k v r
  end.

Fixpoint insert_index (e : N * (string * V)) (l : list (N * (string * V)))
  : list (N * (string * V)) :=
  match l with
  | [] => [e]
  | e' :: r => if (fst e <=? fst e')%N then e :: l else e' :: insert_index e r
  end.

Fixpoint index_entries (o : list (string * V)) : list (N * (string * V)) :=
  match o with
  | [] => []
  | (k, v) :: r =>
      match array_index k with
      | Some n => insert_index (n, (k, v)) (index_entries r)
      | None => index_entries r
      end
  end.

Fixpoint named_entries (o : list (string * V)) : list (string * V) :=
  match o with
  | [] => []
  | (k, v) :: r =>
      match array_index k with
      | Some _ => named_entries r
      | None => (k, v) :: named_entries r
      end
  end.

(** [Object.entries(o)]. *)
Definition obj_entries (o : list (string * V)) : list (string * V) :=
  (List.map snd (index_entries o) ++ named_entries o)%list.

(** [Object.keys(o)]. *)
Definition obj_keys (o : list (string * V)) : list string :=
  List.map fst (obj_entries o).
End Obj.

(** ** Property reads *)

Inductive error : Type :=
| TypeError
| Error (message : string).

Inductive outcome (A : Type) : Type :=
| Ok (a : A)
| Throw (e : error).

Arguments Ok {A} a.
Arguments Throw {A} e.

(** [v[k]]: reading a property of [undefined] or [null] throws. *)
Definition get_prop (v : jsval) (k : string) : outcome jsval :=
  match v with
  | VUndef | VNull => Throw TypeError
  | VBool _ | VNum _ => Ok VUndef
  | VStr s =>
      if String.eqb k "length" then Ok (VNum (Z.of_nat (String.length s)))
      else match array_index k with
           | Some i => match String.get (N.to_nat i) s with
                       | Some c => Ok (VStr (String c EmptyString))
                       | None => Ok VUndef
                       end
           | None => Ok VUndef
           end
  | VArr l =>
      if String.eqb k "length" then Ok (VNum (Z.of_nat (List.length l)))
      else match array_index k with
           | Some i => Ok (default VUndef (l !! N.to_nat i))
           | None => Ok VUndef
           end
  | VObj o => Ok (default VUndef (obj_get o k))
  end.

(** [typeof v === 'undefined']. *)
Definition is_undefined (v : jsval) : bool :=
  match v with VUndef => true | _ => false end.

(** [v === true]. *)
Definition is_true (v : jsval) : bool :=
  match v with VBool true => true | _ => false end.

(** ** The protocol definition *)

Record ParameterDef : Type := mkParameter
  { p_name : string;
    optional : jsval }.

Record CommandDef : Type := mkCommand
  { c_name : string;
    parameters : option (list ParameterDef) }.

Record EventDef : Type := mkEvent
  { e_name : string }.

Record DomainDef : Type := mkDomain
  { domain : string;
    commands : list CommandDef;
    events : option (list EventDef) }.

Record Protocol : Type := mkProtocol
  { domains : list DomainDef }.

(** ** The dispatcher object *)

(** A listener is known by its identity; a promise by the request id that
    was current when [send] created it. *)
Definition handler := nat.
Definition promise := Z.

Record Dispatcher : Type := mkDispatcher
  { _id : Z;
    _protocol : Protocol;
    _resolvers : gmap string promise;
    _rejectors : gmap string promise;
    _domainListeners : gmap string (list handler);
    _parameterMap : gmap string (gmap string (obj ParameterDef)) }.

Definition set_id (f : Z → Z) (this : Dispatcher) : Dispatcher :=
  mkDispatcher (f (_id this)) (_protocol this) (_resolvers this)
    (_rejectors this) (_domainListeners this) (_parameterMap this).

Definition set_resolvers (f : gmap string promise → gmap string promise)
    (this : Dispatcher) : Dispatcher :=
  mkDispatcher (_id this) (_protocol this) (f (_resolvers this))
    (_rejectors this) (_domainListeners this) (_parameterMap this).

Definition set_rejectors (f : gmap string promise → gmap string promise)
    (this : Dispatcher) : Dispatcher :=
  mkDispatcher (_id this) (_protocol this) (_resolvers this)
    (f (_rejectors this)) (_domainListeners this) (_parameterMap this).

Definition set_domainListeners
    (f : gmap string (list handler) → gmap string (list handler))
    (this : Dispatcher) : Dispatcher :=
  mkDispatcher (_id this) (_protocol this) (_resolvers this)
    (_rejectors this) (f (_domainListeners this)) (_parameterMap this).

(** Calls the dispatcher makes on its collaborators. *)
Inductive effect : Type :=
| ConnectionSend (id : Z) (method : string) (params : jsval)
    (* [this._connection.send(JSON.stringify({id, method, params}))] *)
| Resolve (p : promise) (value : jsval)
| Reject (p : promise) (reason : jsval)
| Listener (h : handler) (prop : string) (params : jsval).

(** ** The method monad: state, calls made, exception *)

Definition M (A : Type) : Type :=
  Dispatcher → outcome A * Dispatcher * list effect.

Definition ret {A} (a : A) : M A := λ this, (Ok a, this, []).

Definition bind {A B} (m : M A) (f : A → M B) : M B :=
  λ this,
    match m this with
    | (Ok a, this', calls) =>
        let '(r, this'', calls') := f a this' in (r, this'', (calls ++ calls')%list)
    | (Throw e, this', calls) => (Throw e, this', calls)
    end.

Definition throw {A} (e : error) : M A := λ this, (Throw e, this, []).
Definition get_this : M Dispatcher := λ this, (Ok this, this, []).
Definition modify (f : Dispatcher → Dispatcher) : M unit :=
  λ this, (Ok tt, f this, []).
Definition call (e : effect) : M unit := λ this, (Ok tt, this, [e]).
Definition lift {A} (o : outcome A) : M A := λ this, (o, this, []).

Declare Scope js_scope.
Delimit Scope js_scope with js.
Notation "x <- m ;; k" := (bind m (λ x, k))
  (at level 100, m at next level, right associativity) : js_scope.
Notation "m ;; k" := (bind m (λ _, k))
  (at level 100, right associativity) : js_scope.
Local Open Scope js_scope.

(** [l.forEach(f)] with an accumulator for the variables [f] assigns. *)
Fixpoint forEach {A S} (f : S → A → M S) (l : list A) (s : S) : M S :=
  match l with
  | [] => ret s
  | a :: r => s' <- f s a ;; forEach f r s'
  end.

(** ** constructor *)

Definition index_parameter (domain name : string)
    (pm : gmap string (gmap string (obj ParameterDef)))
    (parameter : ParameterDef) :=
  alter (alter (obj_set (p_name parameter) parameter) name) domain pm.

Definition index_command (domain : string)
    (pm : gmap string (gmap string (obj ParameterDef))) (c : CommandDef) :=
  let pm := alter (insert (c_name c) []) domain pm in
  match parameters c with
  | None => pm
  | Some ps => fold_left (index_parameter domain (c_name c)) ps pm
  end.

Definition index_domain (pm : gmap string (gmap string (obj ParameterDef)))
    (d : DomainDef) :=
  let pm := <[domain d := ∅]> pm in
  fold_left (index_command (domain d)) (commands d) pm.

Definition new_Dispatcher (protocol : Protocol) : Dispatcher :=
  {| _id := 0;
     _protocol := protocol;
     _resolvers := ∅;
     _rejectors := ∅;
     _domainListeners := ∅;
     _parameterMap := fold_left index_domain (domains protocol) ∅ |}.

(** ** _validateParams: the value of the returned object's [error] *)

Definition _validateParams (namespace method : string) (params : jsval)
  : M jsval :=
  this <- get_this ;;
  match _parameterMap this !! namespace with
  | None => ret (VStr ("unknown namespace: " ++ namespace))
  | Some methods =>
      match methods !! method with
      | None => ret (VStr ("unknown method: " ++ namespace ++ "." ++ method))
      | Some knownParams =>
          if (List.length (obj_keys knownParams) =? 0)%nat then ret (VNum 0)
          else
            missingParams <-
              forEach (λ missingParams '(paramName, paramDef),
                  param <- lift (get_prop params paramName) ;;
                  if negb (is_true (optional paramDef)) && is_undefined param
                  then ret (missingParams ++ [paramName])%list
                  else ret missingParams)
                (obj_entries knownParams) [] ;;
            if (0 <? List.length missingParams)%nat then
              ret (VStr (method ++ " requires '"
                         ++ String.concat "," missingParams ++ "' parameter"))
            else ret (VNum 0)
      end
  end.

(** ** send: [Throw e] is the returned promise rejected with [e], [Ok p] the
    pending promise [p] *)

(** The default [params = {}] of the signature. *)
Definition default_params (params : jsval) : jsval :=
  match params with VUndef => VObj [] | _ => params end.

Definition send (namespace method : string) (params : jsval) : M promise :=
  let params := default_params params in
  validation <- _validateParams namespace method params ;;
  if truthy validation then throw (Error (to_string validation))
  else
    modify (set_id (λ id, id + 1)) ;;
    this <- get_this ;;
    call (ConnectionSend (_id this) (namespace ++ "." ++ method) params) ;;
    that <- get_this ;;
    modify (set_resolvers <[to_string (VNum (_id that)) := _id that]>) ;;
    modify (set_rejectors <[to_string (VNum (_id that)) := _id that]>) ;;
    ret (_id that).

(** ** _handleMessage *)

Definition _handleMessage (message : jsval) : M jsval :=
  id <- lift (get_prop message "id") ;;
  if truthy id then
    error <- lift (get_prop message "error") ;;
    (if truthy error then
       this <- get_this ;;
       match _rejectors this !! to_string id with
       | Some rejector =>
           error <- lift (get_prop message "error") ;;
           reason <- lift (get_prop error "message") ;;
           call (Reject rejector reason)
       | None => ret tt
       end
     else
       this <- get_this ;;
       match _resolvers this !! to_string id with
       | Some resolver =>
           result <- lift (get_prop message "result") ;;
           call (Resolve resolver result)
       | None => ret tt
       end) ;;
    modify (set_resolvers (delete (to_string id))) ;;
    modify (set_rejectors (delete (to_string id))) ;;
    ret (VBool true)
  else
    method <- lift (get_prop message "method") ;;
    match method with
    | VStr method =>
        let dotIndex := indexOf method "." in
        let domain := substr method 0 (Some dotIndex) in
        let prop := substr method (dotIndex + 1) None in
        this <- get_this ;;
        match _domainListeners this !! domain with
        | Some handlers =>
            forEach (λ _ handler,
                params <- lift (get_prop message "params") ;;
                call (Listener handler prop params))
              handlers tt ;;
            ret VUndef
        | None => ret VUndef
        end
    | _ => throw TypeError
    end.

(** ** registerDomainListener *)

Definition registerDomainListener (name : string) (handler : handler)
  : M unit :=
  this <- get_this ;;
  modify (set_domainListeners
            <[name := default [] (_domainListeners this !! name)]>) ;;
  modify (set_domainListeners (alter (λ l, (l ++ [handler])%list) name)).

(** ** getDomainDefinition: [None] is [null] *)

Definition getDomainDefinition (name : string) : M (option DomainDef) :=
  this <- get_this ;;
  ret (List.find (λ def, String.eqb (domain def) name)
         (domains (_protocol this))).

(** ** getDomainEventNames *)

Definition getDomainEventNames (name : string) : M (list string) :=
  def <- getDomainDefinition name ;;
  match def with
  | None => throw TypeError
  | Some def =>
      match events def with
      | Some events => ret (List.map e_name events)
      | None => ret []
      end
  end.

(** ** Runs: the calls the environment makes on one dispatcher *)

Inductive op : Type :=
| OpSend (namespace method : string) (params : jsval)
| OpMessage (message : jsval)
| OpRegister (name : string) (h : handler).

(** One call; its result and a raised exception go to the caller, the
    dispatcher keeps whatever was mutated. *)
Definition exec_op (o : op) (this : Dispatcher) : Dispatcher * list effect :=
  match o with
  | OpSend namespace method params =>
      let '(_, this', calls) := send namespace method params this in
      (this', calls)
  | OpMessage message =>
      let '(_, this', calls) := _handleMessage message this in (this', calls)
  | OpRegister name h =>
      let '(_, this', calls) := registerDomainListener name h this in
      (this', calls)
  end.

Fixpoint exec (ops : list op) (this : Dispatcher) : Dispatcher * list effect :=
  match ops with
  | [] => (this, [])
  | o :: r =>
      let '(this', calls) := exec_op o this in
      let '(this'', calls') := exec r this' in
      (this'', (calls ++ calls')%list)
  end.

(** The dispatcher after a run from construction, and the calls made. *)
Definition after (protocol : Protocol) (ops : list op) : Dispatcher :=
  fst (exec ops (new_Dispatcher protocol)).

Definition calls_of (protocol : Protocol) (ops : list op) : list effect :=
  snd (exec ops (new_Dispatcher protocol)).

(** Request ids handed to the connection, in order. *)
Definition sent_ids (calls : list effect) : list Z :=
  omap (λ e, match e with ConnectionSend id _ _ => Some id | _ => None end)
       calls.

(** Listeners registered for a domain name during a run, in order. *)
Definition registered (name : string) (ops : list op) : list handler :=
  omap (λ o, match o with
             | OpRegister name' h =>
                 if String.eqb name' name then Some h else None
             | _ => None
             end) ops.

(** The schema of the end-to-end scenario: domain [Page], command
    [navigate] with required [url] and optional [referrer], event [loaded];
    next to it a command without parameters and a domain without events. *)
Definition navigate_command : CommandDef :=
  {| c_name := "navigate";
     parameters :=
       Some [ {| p_name := "url"; optional := VUndef |};
              {| p_name := "referrer"; optional := VBool true |} ] |}.

Definition reload_command : CommandDef :=
  {| c_name := "reload"; parameters := None |}.

Definition page_domain : DomainDef :=
  {| domain := "Page";
     commands := [navigate_command; reload_command];
     events := Some [ {| e_name := "loaded" |} ] |}.

Definition log_domain : DomainDef :=
  {| domain := "Log"; commands := []; events := None |}.

Definition page_protocol : Protocol :=
  {| domains := [page_domain; log_domain] |}.


(** ** Vocabulary of the statements *)

(** An own property of an object literal, [undefined] when absent. *)
Definition field (o : list (string * jsval)) (k : string) : jsval :=
  default VUndef (obj_get o k).

(** A property of a value on which the read cannot throw. *)
Definition read (v : jsval) (k : string) : jsval :=
  match get_prop v k with Ok x => x | Throw _ => VUndef end.

(** The two parts [_handleMessage] cuts an event's [method] into. *)
Definition derived_domain (method : string) : string :=
  substr method 0 (Some (indexOf method ".")).

Definition derived_prop (method : string) : string :=
  substr method (indexOf method "." + 1) None.

(** The listeners held for a domain name. *)
Definition listeners_at (this : Dispatcher) (name : string) : list handler :=
  default [] (_domainListeners this !! name).

(** The parameter table the constructor stores for a command. *)
Definition params_obj (parameters : option (list ParameterDef))
  : obj ParameterDef :=
  match parameters with
  | None => []
  | Some ps => fold_left (λ o p, obj_set (p_name p) p o) ps []
  end.

Definition commands_map (cs : list CommandDef)
  : gmap string (obj ParameterDef) :=
  fold_left (λ cm c, <[c_name c := params_obj (parameters c)]> cm) cs ∅.

(** The names [_validateParams] collects from a table's entries. *)
Definition missing_in (entries : list (string * ParameterDef))
    (bag : list (string * jsval)) : list string :=
  List.map fst
    (List.filter (λ e, negb (is_true (optional (snd e)))
                       && is_undefined (field bag (fst e))) entries).

(** Specification wording: the declared parameters that are not optional
    and that the bag binds to no defined value, in declared order. *)
Definition missing_required (ps : list ParameterDef)
    (bag : list (string * jsval)) : list string :=
  List.map p_name
    (List.filter (λ p, negb (is_true (optional p))
                       && is_undefined (field bag (p_name p))) ps).

(** The dispatcher once [send] has allocated an id and stored the promise
    callbacks. *)
Definition sent (this : Dispatcher) : Dispatcher :=
  let that := set_id (λ id, id + 1) this in
  set_rejectors <[to_string (VNum (_id that)) := _id that]>
    (set_resolvers <[to_string (VNum (_id that)) := _id that]> that).

(** The dispatcher once a reply with property key [key] has been handled. *)
Definition replied (key : string) (this : Dispatcher) : Dispatcher :=
  set_rejectors (delete key) (set_resolvers (delete key) this).

(** The callbacks a reply triggers. *)
Definition reply_calls (o : list (string * jsval)) (this : Dispatcher)
  : list effect :=
  if truthy (field o "error") then
    match _rejectors this !! to_string (field o "id") with
    | Some rejector => [Reject rejector (read (field o "error") "message")]
    | None => []
    end
  else
    match _resolvers this !! to_string (field o "id") with
    | Some resolver => [Resolve resolver (field o "result")]
    | None => []
    end.

(** ** getDomainCommands: each value is the object [{parameters}] *)

Definition getDomainCommands (name : string)
  : M (obj (option (list ParameterDef))) :=
  def <- getDomainDefinition name ;;
  match def with
  | None => throw TypeError
  | Some def =>
      forEach (λ commandMap c,
          ret (obj_set (c_name c) (parameters c) commandMap))
        (commands def) []
  end.

(** ** getDomainCommandNames *)

Definition getDomainCommandNames (name : string) : M (list string) :=
  commandMap <- getDomainCommands name ;;
  ret (obj_keys commandMap).

(** The promises whose resolver or rejector a list of calls invokes. *)
Definition settled (calls : list effect) : list promise :=
  omap (λ e, match e with
             | Resolve p _ | Reject p _ => Some p
             | _ => None
             end) calls.

(** Whether a call of a run delivers a reply under the property key
    [key]. *)
Definition replies_to (key : string) (o : op) : bool :=
  match o with
  | OpMessage message =>
      match get_prop message "id" with
      | Ok id => truthy id && String.eqb (to_string id) key
      | Throw _ => false
      end
  | _ => false
  end.


(** The shape of the two callback tables: the same entries in both, each
    stored under the decimal rendering of an id the counter has passed. *)
Definition pending_keyed (this : Dispatcher) : Prop :=
  _resolvers this = _rejectors this
  ∧ (0 ≤ _id this)%Z
  ∧ ∀ k p, _resolvers this !! k = Some p →
           k = to_string (VNum p) ∧ (1 ≤ p ≤ _id this)%Z.

(** One call of a run, by what it does to the dispatcher: nothing, an id
    allocated and a request handed over, a reply's entries removed, a
    listener appended. *)
Inductive step : op → Dispatcher → Dispatcher → list effect → Prop :=
| step_idle o this calls :
    sent_ids calls = [] →
    (∀ name, registered name [o] = []) →
    step o this this calls
| step_sent namespace method params this :
    step (OpSend namespace method params) this (sent this)
      [ConnectionSend (_id this + 1) (namespace ++ "." ++ method)
         (default_params params)]
| step_replied message key this calls :
    sent_ids calls = [] →
    step (OpMessage message) this (replied key this) calls
| step_registered name h this :
    step (OpRegister name h) this
      (set_domainListeners
         <[name := (listeners_at this name ++ [h])%list]> this) [].

(** * Properties *)

(** ** Laws of the method monad *)

Section MonadLaws.
Context {A B : Type}.
Implicit Types (f : A → M B) (this : Dispatcher).

Lemma bind_ret a f this : bind (ret a) f this = f a this.
Proof. unfold bind, ret. by destruct (f a this) as [[??]?]. Qed.

Lemma bind_lift_Ok a f this : bind (lift (Ok a)) f this = f a this.
Proof. apply bind_ret. Qed.

Lemma bind_lift_Throw e f this :
  bind (lift (Throw e)) f this = (Throw e, this, []).
Proof. reflexivity. Qed.

Lemma bind_throw e f this : bind (throw e) f this = (Throw e, this, []).
Proof. reflexivity. Qed.
End MonadLaws.

Lemma bind_get_this {B} (f : Dispatcher → M B) this :
  bind get_this f this = f this this.
Proof. unfold bind, get_this. by destruct (f this this) as [[??]?]. Qed.

Lemma bind_modify {B} g (f : unit → M B) this :
  bind (modify g) f this = f tt (g this).
Proof. unfold bind, modify. by destruct (f tt (g this)) as [[??]?]. Qed.

Lemma bind_call {B} e (f : unit → M B) this :
  bind (call e) f this
  = let '(r, this', calls) := f tt this in (r, this', e :: calls).
Proof. reflexivity. Qed.

Lemma bind_assoc {A B C} (m : M A) (f : A → M B) (g : B → M C) this :
  bind (bind m f) g this = bind m (λ a, bind (f a) g) this.
Proof.
  unfold bind. destruct (m this) as [[[a|e] this'] c]; [|reflexivity].
  destruct (f a this') as [[[b|e] this''] c']; [|reflexivity].
  destruct (g b this'') as [[r this'''] c'']. by rewrite app_assoc.
Qed.

(** A step that neither mutates nor calls can be run first. *)
Lemma bind_pure {A B} (m : M A) (f : A → M B) this r :
  m this = (r, this, []) →
  bind m f this = match r with
                  | Ok a => f a this
                  | Throw e => (Throw e, this, [])
                  end.
Proof.
  intros H. unfold bind. rewrite H. destruct r as [a|e]; [|reflexivity].
  by destruct (f a this) as [[??]?].
Qed.

(** ** Property reads *)

Lemma get_prop_truthy v k : truthy v = true → get_prop v k = Ok (read v k).
Proof.
  unfold read. destruct v; simpl; try discriminate; intros _; try reflexivity.
  - destruct (String.eqb k "length"); [reflexivity|].
    destruct (array_index k); [|reflexivity]. by destruct (String.get _ _).
  - destruct (String.eqb k "length"); [reflexivity|].
    by destruct (array_index k).
Qed.

(** ** _handleMessage, case by case *)

Lemma forEach_listeners message prop params handlers this :
  get_prop message "params" = Ok params →
  forEach (λ (_ : unit) handler,
      params <- lift (get_prop message "params") ;;
      call (Listener handler prop params)) handlers tt this
  = (Ok tt, this, List.map (λ h, Listener h prop params) handlers).
Proof.
  intros Hp. rewrite Hp. induction handlers as [|h r IH]; [reflexivity|].
  cbn [forEach List.map]. rewrite bind_assoc, bind_lift_Ok, bind_call.
  by rewrite IH.
Qed.

Lemma handle_event o m this :
  truthy (field o "id") = false →
  field o "method" = VStr m →
  _handleMessage (VObj o) this
  = (Ok VUndef, this,
     List.map (λ h, Listener h (derived_prop m) (field o "params"))
       (listeners_at this (derived_domain m))).
Proof.
  intros Hid Hm. unfold _handleMessage, listeners_at, derived_prop,
    derived_domain. cbn [get_prop].
  fold (field o "id") (field o "method").
  rewrite bind_lift_Ok, Hid, Hm, bind_lift_Ok, bind_get_this.
  destruct (_domainListeners this !! _) as [hs|]; simpl; [|reflexivity].
  unfold bind at 1.
  rewrite (forEach_listeners (VObj o) _ (field o "params")); [|reflexivity].
  simpl. by rewrite app_nil_r.
Qed.

Lemma handle_no_method o this :
  truthy (field o "id") = false →
  (∀ m, field o "method" ≠ VStr m) →
  _handleMessage (VObj o) this = (Throw TypeError, this, []).
Proof.
  intros Hid Hm. unfold _handleMessage. cbn [get_prop].
  fold (field o "id") (field o "method").
  rewrite bind_lift_Ok, Hid, bind_lift_Ok.
  destruct (field o "method") as [| | | |m| |]; try reflexivity.
  by destruct (Hm m).
Qed.

Lemma handle_not_object message this :
  (∀ o, message ≠ VObj o) →
  _handleMessage message this = (Throw TypeError, this, []).
Proof.
  intros H. destruct message as [| | | | | |o]; try reflexivity.
  by destruct (H o).
Qed.

Lemma handle_reply o this :
  truthy (field o "id") = true →
  _handleMessage (VObj o) this
  = (Ok (VBool true), replied (to_string (field o "id")) this,
     reply_calls o this).
Proof.
  intros Hid. unfold _handleMessage, reply_calls, replied. cbn [get_prop].
  fold (field o "id") (field o "error") (field o "result").
  rewrite bind_lift_Ok, Hid, bind_lift_Ok.
  destruct (truthy (field o "error")) eqn:He.
  - rewrite bind_assoc, bind_get_this.
    destruct (_rejectors this !! _) as [p|].
    + rewrite !bind_assoc, bind_lift_Ok, bind_assoc.
      rewrite (get_prop_truthy _ _ He), bind_lift_Ok, bind_call.
      by rewrite !bind_modify.
    + by rewrite bind_ret, !bind_modify.
  - rewrite bind_assoc, bind_get_this.
    destruct (_resolvers this !! _) as [p|].
    + rewrite !bind_assoc, bind_lift_Ok, bind_call. by rewrite !bind_modify.
    + by rewrite bind_ret, !bind_modify.
Qed.

(** ** _validateParams, case by case *)

Lemma forEach_pure {A S} (f : S → A → M S) l :
  (∀ s a this, ∃ r, f s a this = (r, this, [])) →
  ∀ s this, ∃ r, forEach f l s this = (r, this, []).
Proof.
  intros Hf. induction l as [|a l IH]; intros s this; [by eexists|].
  cbn [forEach]. destruct (Hf s a this) as [r Hr].
  rewrite (bind_pure _ _ _ _ Hr). destruct r as [s'|e]; [apply IH|by eexists].
Qed.

Lemma validate_pure namespace method params this :
  ∃ r, _validateParams namespace method params this = (r, this, []).
Proof.
  unfold _validateParams. rewrite bind_get_this.
  destruct (_parameterMap this !! namespace) as [ms|]; [|by eexists].
  destruct (ms !! method) as [known|]; [|by eexists].
  destruct (_ =? _)%nat; [by eexists|].
  edestruct (forEach_pure
    (λ (missingParams : list string) '(paramName, paramDef),
       param <- lift (get_prop params paramName) ;;
       if negb (is_true (optional paramDef)) && is_undefined param
       then ret (missingParams ++ [paramName])%list
       else ret missingParams) (obj_entries known)) as [r Hr].
  - intros s [k def] this'. destruct (get_prop params k) as [v|e] eqn:Hv.
    + rewrite bind_lift_Ok. destruct (_ && _); by eexists.
    + by eexists.
  - rewrite (bind_pure _ _ _ _ Hr).
    destruct r as [miss|e]; [|by eexists]. destruct (_ <? _)%nat; by eexists.
Qed.

Lemma validate_unknown_namespace namespace method params this :
  _parameterMap this !! namespace = None →
  _validateParams namespace method params this
  = (Ok (VStr ("unknown namespace: " ++ namespace)), this, []).
Proof.
  intros H. unfold _validateParams. by rewrite bind_get_this, H.
Qed.

Lemma validate_unknown_method namespace method params this methods :
  _parameterMap this !! namespace = Some methods →
  methods !! method = None →
  _validateParams namespace method params this
  = (Ok (VStr ("unknown method: " ++ namespace ++ "." ++ method)), this, []).
Proof.
  intros H1 H2. unfold _validateParams. rewrite bind_get_this, H1.
  cbv beta iota. by rewrite H2.
Qed.

Lemma validate_no_keys namespace method params this methods known :
  _parameterMap this !! namespace = Some methods →
  methods !! method = Some known →
  obj_keys known = [] →
  _validateParams namespace method params this = (Ok (VNum 0), this, []).
Proof.
  intros H1 H2 H3. unfold _validateParams. rewrite bind_get_this, H1.
  cbv beta iota. rewrite H2. cbv beta iota. by rewrite H3.
Qed.

Lemma forEach_missing bag entries acc this :
  forEach (λ (missingParams : list string) '(paramName, paramDef),
      param <- lift (get_prop (VObj bag) paramName) ;;
      if negb (is_true (optional paramDef)) && is_undefined param
      then ret (missingParams ++ [paramName])%list
      else ret missingParams) entries acc this
  = (Ok (acc ++ missing_in entries bag)%list, this, []).
Proof.
  revert acc. induction entries as [|[k def] r IH]; intros acc.
  - simpl. by rewrite app_nil_r.
  - cbn [forEach]. rewrite bind_assoc. cbn [get_prop]. rewrite bind_lift_Ok.
    fold (field bag k). unfold missing_in. cbn [List.filter fst snd].
    destruct (negb (is_true (optional def)) && is_undefined (field bag k)).
    + rewrite bind_ret, IH. cbn [List.map fst]. by rewrite <- app_assoc.
    + by rewrite bind_ret, IH.
Qed.

Lemma validate_object namespace method bag this methods known :
  _parameterMap this !! namespace = Some methods →
  methods !! method = Some known →
  obj_keys known ≠ [] →
  _validateParams namespace method (VObj bag) this
  = (Ok (match missing_in (obj_entries known) bag with
         | [] => VNum 0
         | missing =>
             VStr (method ++ " requires '" ++ String.concat "," missing
                   ++ "' parameter")
         end), this, []).
Proof.
  intros H1 H2 H3. unfold _validateParams. rewrite bind_get_this, H1.
  cbv beta iota. rewrite H2. cbv beta iota.
  destruct (obj_keys known) as [|k ks] eqn:Hk; [done|]. cbn [List.length].
  change (S (List.length ks) =? 0)%nat with false. cbv iota.
  rewrite (bind_pure _ _ _ _ (forEach_missing bag _ [] this)).
  cbn [app]. by destruct (missing_in _ _).
Qed.

(** ** send, case by case *)

Lemma send_reject namespace method params this v :
  _validateParams namespace method (default_params params) this
  = (Ok v, this, []) →
  truthy v = true →
  send namespace method params this
  = (Throw (Error (to_string v)), this, []).
Proof.
  intros Hv Ht. unfold send. by rewrite (bind_pure _ _ _ _ Hv), Ht.
Qed.

Lemma send_throw namespace method params this e :
  _validateParams namespace method (default_params params) this
  = (Throw e, this, []) →
  send namespace method params this = (Throw e, this, []).
Proof. intros Hv. unfold send. by rewrite (bind_pure _ _ _ _ Hv). Qed.

Lemma send_accept namespace method params this v :
  _validateParams namespace method (default_params params) this
  = (Ok v, this, []) →
  truthy v = false →
  send namespace method params this
  = (Ok (_id this + 1), sent this,
     [ConnectionSend (_id this + 1) (namespace ++ "." ++ method)
        (default_params params)]).
Proof.
  intros Hv Ht. unfold send. rewrite (bind_pure _ _ _ _ Hv), Ht.
  rewrite bind_modify, bind_get_this, bind_call, bind_get_this.
  by rewrite !bind_modify.
Qed.

(** Whatever the arguments, [send] either fails leaving the dispatcher
    untouched, or allocates the next id and hands one request over. *)
Lemma send_cases namespace method params this :
  (∃ e, send namespace method params this = (Throw e, this, []))
  ∨ send namespace method params this
    = (Ok (_id this + 1), sent this,
       [ConnectionSend (_id this + 1) (namespace ++ "." ++ method)
          (default_params params)]).
Proof.
  destruct (validate_pure namespace method (default_params params) this)
    as [[v|e] Hv].
  - destruct (truthy v) eqn:Ht.
    + left. eexists. by apply send_reject.
    + right. by apply (send_accept _ _ _ _ v).
  - left. eexists. by apply send_throw.
Qed.

(** ** registerDomainListener *)

Lemma register_eq name h this :
  registerDomainListener name h this
  = (Ok tt,
     set_domainListeners <[name := (listeners_at this name ++ [h])%list]> this,
     []).
Proof.
  unfold registerDomainListener. rewrite bind_get_this, bind_modify.
  unfold modify, set_domainListeners, listeners_at. simpl.
  by rewrite alter_insert_eq.
Qed.

(** ** The parameter index the constructor builds *)

Lemma fold_index_parameter domain name ps o cm
    (pm : gmap string (gmap string (obj ParameterDef))) :
  fold_left (index_parameter domain name) ps (<[domain := <[name := o]> cm]> pm)
  = <[domain :=
        <[name := fold_left (λ o p, obj_set (p_name p) p o) ps o]> cm]> pm.
Proof.
  revert o. induction ps as [|p ps IH]; intros o; [reflexivity|].
  cbn [fold_left]. unfold index_parameter at 2.
  by rewrite !alter_insert_eq, IH.
Qed.

Lemma index_command_eq domain c cm
    (pm : gmap string (gmap string (obj ParameterDef))) :
  index_command domain (<[domain := cm]> pm) c
  = <[domain := <[c_name c := params_obj (parameters c)]> cm]> pm.
Proof.
  unfold index_command, params_obj. rewrite alter_insert_eq.
  destruct (parameters c) as [ps|]; [apply fold_index_parameter|reflexivity].
Qed.

Lemma fold_index_command domain cs cm
    (pm : gmap string (gmap string (obj ParameterDef))) :
  fold_left (index_command domain) cs (<[domain := cm]> pm)
  = <[domain :=
        fold_left (λ cm c, <[c_name c := params_obj (parameters c)]> cm)
          cs cm]> pm.
Proof.
  revert cm. induction cs as [|c cs IH]; intros cm; [reflexivity|].
  cbn [fold_left]. by rewrite index_command_eq, IH.
Qed.

Lemma index_domain_eq (pm : gmap string (gmap string (obj ParameterDef))) d :
  index_domain pm d = <[domain d := commands_map (commands d)]> pm.
Proof. apply fold_index_command. Qed.

Lemma fold_index_domain ds (pm : gmap string (gmap string (obj ParameterDef))) :
  fold_left index_domain ds pm
  = fold_left (λ pm d, <[domain d := commands_map (commands d)]> pm) ds pm.
Proof.
  revert pm. induction ds as [|d ds IH]; intros pm; [reflexivity|].
  cbn [fold_left]. by rewrite index_domain_eq, IH.
Qed.

Section FoldInsert.
Context {A V : Type} (key : A → string) (val : A → V).

Lemma fold_insert_notin l (m0 : gmap string V) k :
  k ∉ key <$> l →
  fold_left (λ m a, <[key a := val a]> m) l m0 !! k = m0 !! k.
Proof.
  revert m0. induction l as [|a l IH]; intros m0 Hk; [reflexivity|].
  cbn [fold_left]. rewrite fmap_cons, not_elem_of_cons in Hk.
  destruct Hk as [Hne Hk]. rewrite IH by done. by rewrite lookup_insert_ne.
Qed.

Lemma fold_insert_lookup l (m0 : gmap string V) x :
  NoDup (key <$> l) → x ∈ l →
  fold_left (λ m a, <[key a := val a]> m) l m0 !! key x = Some (val x).
Proof.
  revert m0. induction l as [|a l IH]; intros m0 Hnd Hx.
  - by apply elem_of_nil in Hx.
  - cbn [fold_left]. rewrite fmap_cons in Hnd.
    apply NoDup_cons in Hnd as [Ha Hnd].
    apply elem_of_cons in Hx as [->|Hx]; [|by apply IH].
    rewrite fold_insert_notin by done. apply lookup_insert_eq.
Qed.
End FoldInsert.

Lemma parameterMap_lookup protocol d c :
  NoDup (domain <$> domains protocol) → d ∈ domains protocol →
  NoDup (c_name <$> commands d) → c ∈ commands d →
  _parameterMap (new_Dispatcher protocol) !! domain d
  = Some (commands_map (commands d))
  ∧ commands_map (commands d) !! c_name c = Some (params_obj (parameters c)).
Proof.
  intros Hd Hin Hc Hinc. split.
  - cbn [new_Dispatcher _parameterMap]. rewrite fold_index_domain.
    by apply (fold_insert_lookup domain (λ d, commands_map (commands d))).
  - by apply (fold_insert_lookup c_name (λ c, params_obj (parameters c))).
Qed.

Lemma parameterMap_absent protocol namespace :
  namespace ∉ domain <$> domains protocol →
  _parameterMap (new_Dispatcher protocol) !! namespace = None.
Proof.
  intros H. cbn [new_Dispatcher _parameterMap]. rewrite fold_index_domain.
  by rewrite (fold_insert_notin domain (λ d, commands_map (commands d))).
Qed.

(** ** Parameter tables and their enumeration *)






(** ** Runs *)

Lemma sent_ids_listeners prop params handlers :
  sent_ids (List.map (λ h, Listener h prop params) handlers) = [].
Proof. by induction handlers. Qed.

Lemma sent_ids_reply o this : sent_ids (reply_calls o this) = [].
Proof.
  unfold reply_calls. destruct (truthy _).
  - by destruct (_rejectors this !! _).
  - by destruct (_resolvers this !! _).
Qed.

Lemma sent_ids_app calls calls' :
  sent_ids (calls ++ calls') = (sent_ids calls ++ sent_ids calls')%list.
Proof. apply omap_app. Qed.

(** Every message is a reply, an event, or makes the router throw before
    it touched anything. *)
Lemma handle_cases message this :
  _handleMessage message this = (Throw TypeError, this, [])
  ∨ (∃ o, message = VObj o ∧ truthy (field o "id") = true
          ∧ _handleMessage message this
            = (Ok (VBool true), replied (to_string (field o "id")) this,
               reply_calls o this))
  ∨ (∃ o m, message = VObj o ∧ truthy (field o "id") = false
            ∧ field o "method" = VStr m
            ∧ _handleMessage message this
              = (Ok VUndef, this,
                 List.map (λ h, Listener h (derived_prop m) (field o "params"))
                   (listeners_at this (derived_domain m)))).
Proof.
  destruct message as [| | | | | |o];
    try (left; by apply handle_not_object).
  destruct (truthy (field o "id")) eqn:Hid.
  - right; left. exists o. by rewrite handle_reply.
  - destruct (field o "method") as [| | | |m| |] eqn:Hm;
      try (left; apply handle_no_method; [done|by rewrite Hm]).
    right; right. exists o, m. by rewrite (handle_event o m).
Qed.

Lemma exec_op_step o this :
  step o this (exec_op o this).1 (exec_op o this).2.
Proof.
  destruct o as [namespace method params|message|name h]; cbn [exec_op].
  - destruct (send_cases namespace method params this) as [[e ->]| ->];
      cbn [fst snd]; [by apply step_idle|apply step_sent].
  - destruct (handle_cases message this)
      as [->|[(o & -> & Hid & ->)|(o & m & -> & Hid & Hm & ->)]];
      cbn [fst snd].
    + by apply step_idle.
    + apply step_replied, sent_ids_reply.
    + apply step_idle; [apply sent_ids_listeners|done].
  - rewrite register_eq. cbn [fst snd]. apply step_registered.
Qed.

Lemma exec_cons o ops this :
  exec (o :: ops) this
  = ((exec ops (exec_op o this).1).1,
     ((exec_op o this).2 ++ (exec ops (exec_op o this).1).2)%list).
Proof.
  cbn [exec]. destruct (exec_op o this) as [this' calls]. cbn [fst snd].
  by destruct (exec ops this') as [this'' calls'].
Qed.

(** Nothing after construction writes the schema or its index. *)
Lemma exec_schema ops this :
  _protocol (exec ops this).1 = _protocol this
  ∧ _parameterMap (exec ops this).1 = _parameterMap this.
Proof.
  revert this. induction ops as [|o ops IH]; intros this; [done|].
  rewrite exec_cons. cbn [fst].
  destruct (IH (exec_op o this).1) as [-> ->].
  by destruct (exec_op_step o this).
Qed.

(** The two callback tables hold the same promises under the same keys. *)
Lemma exec_pending ops this :
  _resolvers this = _rejectors this →
  _resolvers (exec ops this).1 = _rejectors (exec ops this).1.
Proof.
  revert this. induction ops as [|o ops IH]; intros this H; [done|].
  rewrite exec_cons. cbn [fst]. apply IH.
  destruct (exec_op_step o this); cbn; by rewrite ?H.
Qed.

Lemma registered_app name ops ops' :
  registered name (ops ++ ops')
  = (registered name ops ++ registered name ops')%list.
Proof. apply omap_app. Qed.

(** The listeners held for a name are those it had, then those registered
    for it since, in order. *)
Lemma exec_listeners name ops this :
  listeners_at (exec ops this).1 name
  = (listeners_at this name ++ registered name ops)%list.
Proof.
  revert this. induction ops as [|o ops IH]; intros this.
  - simpl. by rewrite app_nil_r.
  - rewrite exec_cons. cbn [fst]. rewrite IH.
    change (o :: ops) with ([o] ++ ops)%list.
    rewrite registered_app, app_assoc. f_equal.
    destruct (exec_op_step o this) as [o this calls _ Hr| | |name' h this].
    + by rewrite Hr, app_nil_r.
    + by rewrite app_nil_r.
    + by rewrite app_nil_r.
    + unfold listeners_at, registered. cbn.
      destruct (String.eqb_spec name' name) as [->|Hne].
      * by rewrite lookup_insert_eq.
      * rewrite lookup_insert_ne by done. by rewrite app_nil_r.
Qed.

(** The ids handed to the connection are the next ones of the counter. *)
Lemma exec_ids ops this :
  (_id this ≤ _id (exec ops this).1)%Z
  ∧ sent_ids (exec ops this).2
    = seqZ (_id this + 1) (_id (exec ops this).1 - _id this).
Proof.
  revert this. induction ops as [|o ops IH]; intros this.
  - simpl. split; [lia|]. by rewrite Z.sub_diag.
  - rewrite exec_cons. cbn [fst snd]. rewrite sent_ids_app.
    destruct (IH (exec_op o this).1) as [Hle ->].
    destruct (exec_op_step o this) as [o this calls Hs _| |? ? this calls Hs|].
    + by rewrite Hs.
    + cbn in Hle |- *. split; [lia|].
      rewrite (seqZ_cons (_id this + 1)) by lia. do 2 f_equal; lia.
    + by rewrite Hs.
    + done.
Qed.

(** ** Cutting a method name at its first dot *)

Lemma string_app_cons a s r : String a s ++ r = String a (s ++ r).
Proof. reflexivity. Qed.

Lemma string_length_app s r :
  String.length (s ++ r) = (String.length s + String.length r)%nat.
Proof.
  induction s as [|a s IH]; [done|].
  rewrite string_app_cons. cbn [String.length]. by rewrite IH.
Qed.

Lemma string_app_assoc s r t : (s ++ r) ++ t = s ++ r ++ t.
Proof.
  induction s as [|a s IH]; [done|]. rewrite !string_app_cons. by rewrite IH.
Qed.

Lemma substring_whole s : String.substring 0 (String.length s) s = s.
Proof. induction s as [|a s IH]; simpl; [done|by rewrite IH]. Qed.

Lemma substring_none s : String.substring 0 0 s = "".
Proof. by destruct s. Qed.

Lemma substring_prefix s r : String.substring 0 (String.length s) (s ++ r) = s.
Proof.
  induction s as [|a s IH]; [apply substring_none|].
  rewrite string_app_cons. cbn [String.length String.substring].
  by rewrite IH.
Qed.

Lemma substring_suffix s r :
  String.substring (String.length s) (String.length r) (s ++ r) = r.
Proof.
  induction s as [|a s IH]; [apply substring_whole|].
  rewrite string_app_cons. by cbn [String.length String.substring].
Qed.

Lemma indexOf_from_absent c s i :
  c ∉ String.list_ascii_of_string s → indexOf_from c s i = -1.
Proof.
  revert i. induction s as [|a s IH]; intros i Hc; [done|].
  cbn [String.list_ascii_of_string] in Hc. rewrite not_elem_of_cons in Hc.
  destruct Hc as [Hne Hc]. cbn [indexOf_from].
  destruct (Ascii.eqb_spec a c) as [->|_]; [done|by apply IH].
Qed.

Lemma indexOf_from_first c s r i :
  c ∉ String.list_ascii_of_string s →
  indexOf_from c (s ++ String c r) i = i + Z.of_nat (String.length s).
Proof.
  revert i. induction s as [|a s IH]; intros i Hc.
  - change ("" ++ String c r) with (String c r). cbn [indexOf_from].
    rewrite Ascii.eqb_refl. simpl. lia.
  - cbn [String.list_ascii_of_string] in Hc. rewrite not_elem_of_cons in Hc.
    destruct Hc as [Hne Hc]. rewrite string_app_cons. cbn [indexOf_from].
    destruct (Ascii.eqb_spec a c) as [->|_]; [done|].
    rewrite IH by done. cbn [String.length]. lia.
Qed.

Lemma substr_head s l :
  (0 ≤ l ≤ Z.of_nat (String.length s))%Z →
  substr s 0 (Some l) = String.substring 0 (Z.to_nat l) s.
Proof. intros H. unfold substr. simpl. f_equal; lia. Qed.

Lemma substr_tail s st :
  (0 ≤ st ≤ Z.of_nat (String.length s))%Z →
  substr s st None
  = String.substring (Z.to_nat st) (String.length s - Z.to_nat st) s.
Proof.
  intros H. unfold substr. destruct (Z.ltb_spec st 0); f_equal; lia.
Qed.

Lemma substr_negative s l : (l ≤ 0)%Z → substr s 0 (Some l) = "".
Proof.
  intros H. unfold substr. simpl.
  replace (Z.to_nat _) with 0%nat by lia.
  replace (Z.to_nat _) with 0%nat by lia. apply substring_none.
Qed.

(** A method with a dot is cut at the first one. *)
Lemma derived_dotted Domain name :
  "."%char ∉ String.list_ascii_of_string Domain →
  derived_domain (Domain ++ "." ++ name) = Domain
  ∧ derived_prop (Domain ++ "." ++ name) = name.
Proof.
  intros Hd. unfold derived_domain, derived_prop, indexOf.
  rewrite (indexOf_from_first "." Domain name 0 Hd
           : indexOf_from "." (Domain ++ "." ++ name) 0 = _).
  pose proof (string_length_app Domain ("." ++ name)) as Hlen.
  cbn [String.length] in Hlen. simpl in Hlen. split.
  - rewrite substr_head by lia.
    replace (Z.to_nat _) with (String.length Domain) by lia.
    apply substring_prefix.
  - rewrite substr_tail by lia. rewrite <- string_app_assoc.
    replace (Z.to_nat _) with (String.length (Domain ++ "."))
      by (rewrite string_length_app; simpl; lia).
    replace (_ - _)%nat with (String.length name)
      by (rewrite !string_length_app; simpl; lia).
    apply substring_suffix.
Qed.

(** A method without a dot has the empty domain and is its own member
    name. *)
Lemma derived_undotted method :
  "."%char ∉ String.list_ascii_of_string method →
  derived_domain method = "" ∧ derived_prop method = method.
Proof.
  intros Hd. unfold derived_domain, derived_prop, indexOf.
  rewrite indexOf_from_absent by done. split.
  - by apply substr_negative.
  - change (-1 + 1) with 0. rewrite substr_tail by lia.
    rewrite Nat.sub_0_r. apply substring_whole.
Qed.

(** ** Dispatchers reached from construction *)

Lemma after_schema protocol ops :
  _protocol (after protocol ops) = protocol
  ∧ _parameterMap (after protocol ops)
    = _parameterMap (new_Dispatcher protocol).
Proof. apply (exec_schema ops (new_Dispatcher protocol)). Qed.

Lemma after_pending protocol ops :
  _resolvers (after protocol ops) = _rejectors (after protocol ops).
Proof. by apply exec_pending. Qed.

Lemma after_listeners protocol ops name :
  listeners_at (after protocol ops) name = registered name ops.
Proof. unfold after. by rewrite exec_listeners. Qed.

Lemma replied_absent key this :
  _resolvers this !! key = None → _rejectors this !! key = None →
  replied key this = this.
Proof.
  intros H1 H2. destruct this. unfold replied, set_rejectors, set_resolvers.
  simpl in *. by rewrite !delete_id.
Qed.

Lemma replied_lookup key this :
  _resolvers (replied key this) !! key = None
  ∧ _rejectors (replied key this) !! key = None.
Proof. split; apply lookup_delete_eq. Qed.

Lemma reply_calls_absent o this :
  _resolvers this !! to_string (field o "id") = None →
  _rejectors this !! to_string (field o "id") = None →
  reply_calls o this = [].
Proof. intros H1 H2. unfold reply_calls. rewrite H1, H2. by destruct truthy. Qed.


(** * Properties of the specification *)

(** C1.  A reply (an inbound message with a truthy [id]) whose id is pending
    calls exactly one callback of the pending promise: the rejector with
    [error.message] when the message has a truthy [error] (every error object
    is), the resolver with [result] otherwise, in particular when there is no
    [error] property.  Both entries of the id are then removed, and any later
    reply with that id calls nothing and changes nothing. *)
Theorem reply_settles_pending_once protocol ops o p :
  truthy (field o "id") = true →
  _resolvers (after protocol ops) !! to_string (field o "id") = Some p →
  ∃ this' calls,
    _handleMessage (VObj o) (after protocol ops)
    = (Ok (VBool true), this', calls)
    ∧ calls = (if truthy (field o "error")
               then [Reject p (read (field o "error") "message")]
               else [Resolve p (field o "result")])
    ∧ (∀ e, field o "error" = VObj e → calls = [Reject p (field e "message")])
    ∧ (field o "error" = VUndef → calls = [Resolve p (field o "result")])
    ∧ _resolvers this' !! to_string (field o "id") = None
    ∧ _rejectors this' !! to_string (field o "id") = None
    ∧ ∀ o', truthy (field o' "id") = true →
            to_string (field o' "id") = to_string (field o "id") →
            _handleMessage (VObj o') this' = (Ok (VBool true), this', []).
Proof.
  intros Hid Hp. set (this := after protocol ops) in *.
  set (key := to_string (field o "id")) in *.
  assert (_rejectors this !! key = Some p) as Hq.
  { unfold this. by rewrite <- after_pending. }
  assert (reply_calls o this
          = if truthy (field o "error")
            then [Reject p (read (field o "error") "message")]
            else [Resolve p (field o "result")]) as Hcalls.
  { unfold reply_calls. fold key. rewrite Hp, Hq. by destruct truthy. }
  destruct (replied_lookup key this) as [Hr1 Hr2].
  exists (replied key this), (reply_calls o this).
  split; [by apply handle_reply|]. split; [done|].
  split; [by intros e He; rewrite Hcalls, He|].
  split; [by intros He; rewrite Hcalls, He|].
  split; [done|]. split; [done|].
  intros o' Hid' Hkey. rewrite handle_reply by done. rewrite Hkey. fold key.
  rewrite reply_calls_absent by (by rewrite Hkey).
  by rewrite (replied_absent key (replied key this)).
Qed.

Lemma reply_settles_pending_once_witness :
  ∃ this',
    _handleMessage (VObj [("id", VNum 1); ("result", VStr "done")])
      (after page_protocol [OpSend "Page" "reload" VUndef])
    = (Ok (VBool true), this', [Resolve 1 (VStr "done")])
    ∧ _resolvers this' !! "1" = None.
Proof.
  destruct (reply_settles_pending_once page_protocol
              [OpSend "Page" "reload" VUndef]
              [("id", VNum 1); ("result", VStr "done")] 1)
    as (this' & calls & H & Hcalls & _ & _ & Hgone & _);
    [reflexivity|reflexivity|].
  exists this'. split; [|exact Hgone]. rewrite H, Hcalls. reflexivity.
Defined.







(** C5.  For a command that declares no parameters (the [parameters] field
    absent or empty), validation succeeds whatever is passed as the bag, and
    [send] goes through: it allocates the next id and hands the request,
    carrying the bag untouched, to the connection. *)
Theorem send_without_declared_parameters protocol ops d c params :
  NoDup (domain <$> domains protocol) → d ∈ domains protocol →
  NoDup (c_name <$> commands d) → c ∈ commands d →
  parameters c = None ∨ parameters c = Some [] →
  _validateParams (domain d) (c_name c) params (after protocol ops)
  = (Ok (VNum 0), after protocol ops, [])
  ∧ send (domain d) (c_name c) params (after protocol ops)
    = (Ok (_id (after protocol ops) + 1), sent (after protocol ops),
       [ConnectionSend (_id (after protocol ops) + 1)
          (domain d ++ "." ++ c_name c) (default_params params)]).
Proof.
  intros Hd Hin Hc Hinc Hps.
  destruct (parameterMap_lookup protocol d c Hd Hin Hc Hinc) as [H1 H2].
  rewrite <- (proj2 (after_schema protocol ops)) in H1.
  assert (params_obj (parameters c) = []) as Hno
    by (by destruct Hps as [-> | ->]).
  rewrite Hno in H2.
  assert (∀ params, _validateParams (domain d) (c_name c) params
                      (after protocol ops)
                    = (Ok (VNum 0), after protocol ops, [])) as Hv.
  { intros params'. by apply (validate_no_keys _ _ _ _ _ _ H1 H2). }
  split; [apply Hv|]. by apply (send_accept _ _ _ _ _ (Hv _)).
Qed.

Lemma send_without_declared_parameters_witness :
  send "Page" "reload" (VObj [("extra", VNull)]) (new_Dispatcher page_protocol)
  = (Ok 1, sent (new_Dispatcher page_protocol),
     [ConnectionSend 1 "Page.reload" (VObj [("extra", VNull)])]).
Proof.
  apply (send_without_declared_parameters page_protocol [] page_domain
           reload_command (VObj [("extra", VNull)])).
  - compute_done.
  - by left.
  - compute_done.
  - by right; left.
  - left. reflexivity.
Defined.






(** C8.  For a domain of the protocol definition (the first one of its
    name), [getDomainEventNames] returns the names of its [events] in
    declared order, and the empty sequence when [events] is empty or
    absent. *)
Theorem domain_event_names protocol ops def pre post :
  domains protocol = (pre ++ def :: post)%list →
  Forall (λ d, domain d ≠ domain def) pre →
  getDomainEventNames (domain def) (after protocol ops)
  = (Ok (match events def with
         | Some events => e_name <$> events
         | None => []
         end), after protocol ops, []).
Proof.
  intros Hdom Hpre. unfold getDomainEventNames, getDomainDefinition.
  rewrite bind_assoc, bind_get_this, bind_ret.
  rewrite (proj1 (after_schema protocol ops)), Hdom.
  assert (List.find (λ d, String.eqb (domain d) (domain def))
            (pre ++ def :: post) = Some def) as ->.
  { clear Hdom. induction Hpre as [|d pre Hd _ IH]; simpl.
    - by rewrite String.eqb_refl.
    - by destruct (String.eqb_spec (domain d) (domain def)). }
  by destruct (events def).
Qed.

Lemma domain_event_names_witness :
  getDomainEventNames "Page" (new_Dispatcher page_protocol)
  = (Ok ["loaded"], new_Dispatcher page_protocol, [])
  ∧ getDomainEventNames "Log" (new_Dispatcher page_protocol)
    = (Ok [], new_Dispatcher page_protocol, []).
Proof.
  split.
  - apply (domain_event_names page_protocol [] page_domain [] [log_domain]);
      [reflexivity|constructor].
  - apply (domain_event_names page_protocol [] log_domain [page_domain] []);
      [reflexivity|compute_done].
Defined.

(** C9.  For an inbound message with a falsy [id] whose [method] contains no
    dot, the derived domain is the empty string and the derived member name
    is the whole method: exactly the listeners registered under the empty
    name are called, each with the full method string. *)
Theorem event_without_dot protocol ops o method :
  truthy (field o "id") = false →
  field o "method" = VStr method →
  "."%char ∉ String.list_ascii_of_string method →
  derived_domain method = ""
  ∧ derived_prop method = method
  ∧ _handleMessage (VObj o) (after protocol ops)
    = (Ok VUndef, after protocol ops,
       List.map (λ h, Listener h method (field o "params"))
         (registered "" ops)).
Proof.
  intros Hid Hm Hdot. destruct (derived_undotted method Hdot) as [Hd Hp].
  split; [done|]. split; [done|].
  by rewrite (handle_event o _ _ Hid Hm), Hd, Hp, after_listeners.
Qed.

Lemma event_without_dot_witness :
  _handleMessage (VObj [("method", VStr "loaded"); ("params", VNum 3)])
    (after page_protocol [OpRegister "Page" 7%nat; OpRegister "" 5%nat])
  = (Ok VUndef,
     after page_protocol [OpRegister "Page" 7%nat; OpRegister "" 5%nat],
     [Listener 5%nat "loaded" (VNum 3)]).
Proof.
  apply (event_without_dot page_protocol
           [OpRegister "Page" 7%nat; OpRegister "" 5%nat]
           [("method", VStr "loaded"); ("params", VNum 3)] "loaded").
  - reflexivity.
  - reflexivity.
  - compute_done.
Defined.



(** * Further properties of the code *)

(** ** Objects: assignment, lookup, enumeration *)





Section FoldObjSet.
Context {A V : Type} (key : A → string) (val : A → V).





End FoldObjSet.

Lemma insert_index_perm {V} (e : N * (string * V)) l :
  insert_index e l ≡ₚ e :: l.
Proof.
  induction l as [|e' l IH]; [done|]. cbn [insert_index].
  destruct (fst e <=? fst e')%N; [done|]. rewrite IH. apply Permutation_swap.
Qed.

(** [Object.entries] enumerates every own property once. *)
Lemma obj_entries_perm {V} (o : obj V) : obj_entries o ≡ₚ o.
Proof.
  unfold obj_entries. induction o as [|[k v] o IH]; [done|].
  cbn [index_entries named_entries]. destruct (array_index k) as [n|].
  - change (List.map snd ?l) with (snd <$> l). rewrite insert_index_perm.
    rewrite fmap_cons. cbn [snd app]. by apply perm_skip.
  - rewrite <- Permutation_middle. by apply perm_skip.
Qed.


(** ** Introspection of the protocol definition *)



Lemma find_domain_none name ds :
  name ∉ domain <$> ds →
  List.find (λ d, String.eqb (domain d) name) ds = None.
Proof.
  induction ds as [|d ds IH]; intros H; [done|].
  rewrite fmap_cons, not_elem_of_cons in H. destruct H as [Hne H].
  simpl. destruct (String.eqb_spec (domain d) name) as [Heq|_]; [done|].
  by apply IH.
Qed.

Lemma getDomainDefinition_eq name this :
  getDomainDefinition name this
  = (Ok (List.find (λ d, String.eqb (domain d) name)
           (domains (_protocol this))), this, []).
Proof. unfold getDomainDefinition. by rewrite bind_get_this. Qed.




(** X1.  For a name that no domain of the protocol definition carries,
    [getDomainDefinition] returns null, and the three accessors built on it
    ([getDomainEventNames], [getDomainCommands], [getDomainCommandNames])
    throw a TypeError; the dispatcher is untouched. *)
Theorem unknown_domain_introspection protocol ops name :
  name ∉ domain <$> domains protocol →
  getDomainDefinition name (after protocol ops)
  = (Ok None, after protocol ops, [])
  ∧ getDomainEventNames name (after protocol ops)
    = (Throw TypeError, after protocol ops, [])
  ∧ getDomainCommands name (after protocol ops)
    = (Throw TypeError, after protocol ops, [])
  ∧ getDomainCommandNames name (after protocol ops)
    = (Throw TypeError, after protocol ops, []).
Proof.
  intros Hname.
  assert (getDomainDefinition name (after protocol ops)
          = (Ok None, after protocol ops, [])) as Hdef.
  { rewrite getDomainDefinition_eq, (proj1 (after_schema protocol ops)).
    by rewrite find_domain_none. }
  assert (getDomainCommands name (after protocol ops)
          = (Throw TypeError, after protocol ops, [])) as Hcmds.
  { unfold getDomainCommands. by rewrite (bind_pure _ _ _ _ Hdef). }
  split; [done|]. split; [|split; [done|]].
  - unfold getDomainEventNames. by rewrite (bind_pure _ _ _ _ Hdef).
  - unfold getDomainCommandNames. by rewrite (bind_pure _ _ _ _ Hcmds).
Qed.

Lemma unknown_domain_introspection_witness :
  getDomainCommandNames "Network" (new_Dispatcher page_protocol)
  = (Throw TypeError, new_Dispatcher page_protocol, []).
Proof.
  apply (unknown_domain_introspection page_protocol [] "Network").
  compute_done.
Defined.







(** ** The parameter index, whatever the names *)

Section FoldInsertAny.
Context {A V : Type} (key : A → string) (val : A → V).


End FoldInsertAny.


(** ** What validation depends on *)

Lemma forEach_pure_indep {A S} (f : S → A → M S) l :
  (∀ s a, ∃ r, ∀ this, f s a this = (r, this, [])) →
  ∀ s, ∃ r, ∀ this, forEach f l s this = (r, this, []).
Proof.
  intros Hf. induction l as [|a l IH]; intros s; [by eexists|].
  cbn [forEach]. destruct (Hf s a) as [[s'|e] Hr].
  - destruct (IH s') as [r' Hr']. exists r'. intros this.
    by rewrite (bind_pure _ _ _ _ (Hr this)).
  - exists (Throw e). intros this. by rewrite (bind_pure _ _ _ _ (Hr this)).
Qed.

(** Once the command's table is found, the answer is a function of the
    command name, the table and the bag. *)
Lemma validate_known_indep method known params :
  ∃ r, ∀ namespace this methods,
    _parameterMap this !! namespace = Some methods →
    methods !! method = Some known →
    _validateParams namespace method params this = (r, this, []).
Proof.
  destruct (obj_keys known) as [|k ks] eqn:Hk.
  { exists (Ok (VNum 0)). intros. by eapply validate_no_keys. }
  pose proof (forEach_pure_indep
    (λ (missingParams : list string) '(paramName, paramDef),
       param <- lift (get_prop params paramName) ;;
       if negb (is_true (optional paramDef)) && is_undefined param
       then ret (missingParams ++ [paramName])%list
       else ret missingParams) (obj_entries known)) as Hfe.
  destruct Hfe with (s := @nil string) as [r Hr].
  { intros s [k' def]. cbv beta iota.
    destruct (get_prop params k') as [v|e].
    - destruct (negb (is_true (optional def)) && is_undefined v) eqn:Hb.
      + exists (Ok (s ++ [k'])%list). intros this.
        by rewrite bind_lift_Ok, Hb.
      + exists (Ok s). intros this. by rewrite bind_lift_Ok, Hb.
    - exists (Throw e). by intros this. }
  exists (match r with
          | Ok missingParams =>
              if (0 <? List.length missingParams)%nat then
                Ok (VStr (method ++ " requires '"
                          ++ String.concat "," missingParams ++ "' parameter"))
              else Ok (VNum 0)
          | Throw e => Throw e
          end).
  intros namespace this methods H1 H2. unfold _validateParams.
  rewrite bind_get_this, H1. cbv beta iota. rewrite H2. cbv beta iota.
  rewrite Hk. cbn [List.length]. change (S (List.length ks) =? 0)%nat with false.
  cbv iota. rewrite (bind_pure _ _ _ _ (Hr this)).
  destruct r as [miss|e]; [|done]. by destruct (0 <? List.length miss)%nat.
Qed.

(** Validation reads the parameter index and nothing else. *)
Lemma validate_index_only namespace method params this this' :
  _parameterMap this = _parameterMap this' →
  ∃ r, _validateParams namespace method params this = (r, this, [])
       ∧ _validateParams namespace method params this' = (r, this', []).
Proof.
  intros Hpm. destruct (_parameterMap this !! namespace) as [methods|] eqn:H1.
  - destruct (methods !! method) as [known|] eqn:H2.
    + destruct (validate_known_indep method known params) as [r Hr].
      exists r. split; [by apply (Hr _ _ methods)|].
      apply (Hr _ _ methods); [by rewrite <- Hpm|done].
    + eexists. split; [by eapply validate_unknown_method|].
      eapply validate_unknown_method; [by rewrite <- Hpm|done].
  - eexists. split; [by apply validate_unknown_namespace|].
    apply validate_unknown_namespace. by rewrite <- Hpm.
Qed.

Lemma obj_set_subset {V} k (v : V) o e :
  e ∈ obj_set k v o → e = (k, v) ∨ e ∈ o.
Proof.
  induction o as [|[k0 v0] o IH]; cbn [obj_set].
  - intros ->%list_elem_of_singleton. by left.
  - destruct (String.eqb k0 k).
    + intros [->|H]%elem_of_cons; [by left|]. right. by right.
    + intros [->|H]%elem_of_cons; [right; by left|].
      destruct (IH H) as [->|?]; [by left|]. right. by right.
Qed.

Lemma params_obj_declared ps e :
  e ∈ params_obj (Some ps) → e.2 ∈ ps ∧ e.1 = p_name e.2.
Proof.
  unfold params_obj.
  assert (∀ o, (∀ e, e ∈ o → e.2 ∈ ps ∧ e.1 = p_name e.2) →
               ∀ qs, qs ⊆ ps →
               e ∈ fold_left (λ o p, obj_set (p_name p) p o) qs o →
               e.2 ∈ ps ∧ e.1 = p_name e.2) as H.
  { intros o Ho qs. revert o Ho.
    induction qs as [|q qs IH]; intros o Ho Hsub; [apply Ho|].
    cbn [fold_left]. apply IH; [|intros x Hx; apply Hsub; by right].
    intros e' [->|He']%obj_set_subset; [|by apply Ho].
    split; [|done]. apply Hsub. by left. }
  apply (H []); [by intros ? ?%elem_of_nil|done].
Qed.


Lemma missing_in_none l bag :
  (∀ e, e ∈ l →
        negb (is_true (optional e.2)) && is_undefined (field bag e.1) = false) →
  missing_in l bag = [].
Proof.
  unfold missing_in. induction l as [|e l IH]; intros H; [done|].
  cbn [List.filter]. rewrite (H e) by by left.
  apply IH. intros e' He'. apply H. by right.
Qed.

Lemma missing_required_none ps bag p :
  missing_required ps bag = [] → p ∈ ps →
  negb (is_true (optional p)) && is_undefined (field bag (p_name p)) = false.
Proof.
  unfold missing_required. induction ps as [|q ps IH]; intros H Hp.
  - by apply elem_of_nil in Hp.
  - cbn [List.filter] in H.
    destruct (negb (is_true (optional q)) && _) eqn:Hq; [done|].
    apply elem_of_cons in Hp as [->|Hp]; [done|by apply IH].
Qed.









(** X8.  For a command of the schema, whenever every declared parameter
    that is not optional has a defined value in the object passed as the
    bag, [send] goes through, whatever else the bag holds: it allocates the
    next id and hands the request with the bag to the connection. *)
Theorem send_accepts_complete_bag protocol ops d c ps bag :
  NoDup (domain <$> domains protocol) → d ∈ domains protocol →
  NoDup (c_name <$> commands d) → c ∈ commands d →
  parameters c = Some ps →
  missing_required ps bag = [] →
  send (domain d) (c_name c) (VObj bag) (after protocol ops)
  = (Ok (_id (after protocol ops) + 1), sent (after protocol ops),
     [ConnectionSend (_id (after protocol ops) + 1)
        (domain d ++ "." ++ c_name c) (VObj bag)]).
Proof.
  intros Hd Hin Hc Hinc Hps Hmiss.
  destruct (parameterMap_lookup protocol d c Hd Hin Hc Hinc) as [H1 H2].
  rewrite <- (proj2 (after_schema protocol ops)) in H1. rewrite Hps in H2.
  assert (_validateParams (domain d) (c_name c) (VObj bag)
            (after protocol ops)
          = (Ok (VNum 0), after protocol ops, [])) as Hv.
  { destruct (obj_keys (params_obj (Some ps))) as [|k ks] eqn:Hk.
    { by apply (validate_no_keys _ _ _ _ _ _ H1 H2). }
    rewrite (validate_object _ _ bag _ _ _ H1 H2) by by rewrite Hk.
    rewrite missing_in_none; [done|].
    intros e He. rewrite obj_entries_perm in He.
    destruct (params_obj_declared ps e He) as [Hin' ->].
    by apply (missing_required_none ps). }
  by apply (send_accept _ _ (VObj bag) _ (VNum 0) Hv).
Qed.

Lemma send_accepts_complete_bag_witness :
  send "Page" "navigate"
    (VObj [("url", VStr "http://x"); ("extra", VNull)])
    (new_Dispatcher page_protocol)
  = (Ok 1, sent (new_Dispatcher page_protocol),
     [ConnectionSend 1 "Page.navigate"
        (VObj [("url", VStr "http://x"); ("extra", VNull)])]).
Proof.
  apply (send_accepts_complete_bag page_protocol [] page_domain
           navigate_command
           [ {| p_name := "url"; optional := VUndef |};
             {| p_name := "referrer"; optional := VBool true |} ]
           [("url", VStr "http://x"); ("extra", VNull)]).
  - compute_done.
  - by left.
  - compute_done.
  - by left.
  - reflexivity.
  - reflexivity.
Defined.





(** X11.  What validation answers is fixed at construction: after any run
    of sends, inbound messages and registrations, [_validateParams] gives
    the answer it gave on the fresh dispatcher. *)
Theorem validation_fixed_at_construction protocol ops namespace method params :
  ∃ r,
    _validateParams namespace method params (after protocol ops)
    = (r, after protocol ops, [])
    ∧ _validateParams namespace method params (new_Dispatcher protocol)
      = (r, new_Dispatcher protocol, []).
Proof. apply validate_index_only, after_schema. Qed.

(** ** Pending requests along a run *)

Lemma exec_app ops ops' this :
  exec (ops ++ ops') this
  = ((exec ops' (exec ops this).1).1,
     ((exec ops this).2 ++ (exec ops' (exec ops this).1).2)%list).
Proof.
  revert this. induction ops as [|o ops IH]; intros this.
  - simpl. by destruct (exec ops' this).
  - rewrite <- app_comm_cons, !exec_cons, IH. cbn [fst snd].
    by rewrite app_assoc.
Qed.

Lemma new_keyed protocol : pending_keyed (new_Dispatcher protocol).
Proof.
  split; [done|]. split; [done|]. intros k p H. cbn in H.
  by rewrite lookup_empty in H.
Qed.

Lemma sent_keyed this : pending_keyed this → pending_keyed (sent this).
Proof.
  intros (Heq & H0 & Hk). split; [cbn; by rewrite Heq|].
  split; [cbn; lia|].
  intros k p. cbn. rewrite lookup_insert_Some.
  intros [[<- <-]|[_ H]].
  - split; [done|lia].
  - destruct (Hk k p H) as [-> ?]. split; [done|lia].
Qed.

Lemma replied_keyed key this :
  pending_keyed this → pending_keyed (replied key this).
Proof.
  intros (Heq & H0 & Hk). split; [cbn; by rewrite Heq|]. split; [done|].
  intros k p. cbn. rewrite lookup_delete_Some. intros [_ H]. by apply Hk.
Qed.

Lemma exec_op_keyed o this :
  pending_keyed this → pending_keyed (exec_op o this).1.
Proof.
  intros H. destruct (exec_op_step o this);
    [done|by apply sent_keyed|by apply replied_keyed|done].
Qed.

Lemma exec_keyed ops this :
  pending_keyed this → pending_keyed (exec ops this).1.
Proof.
  revert this. induction ops as [|o ops IH]; intros this H; [done|].
  rewrite exec_cons. cbn [fst]. by apply IH, exec_op_keyed.
Qed.

Lemma exec_op_id_mono o this : (_id this ≤ _id (exec_op o this).1)%Z.
Proof. destruct (exec_op_step o this); cbn; lia. Qed.

(** An entry found after a call was there before it, or belongs to the id
    the call allocated. *)
Lemma exec_op_pending_origin o this k p :
  _resolvers (exec_op o this).1 !! k = Some p →
  _resolvers this !! k = Some p ∨ (_id this < p)%Z.
Proof.
  destruct (exec_op_step o this) as [| | |]; cbn.
  - by left.
  - rewrite lookup_insert_Some. intros [[_ <-]|[_ Hin]]; [right; lia|by left].
  - rewrite lookup_delete_Some. intros [_ Hin]. by left.
  - by left.
Qed.

Lemma settled_app calls calls' :
  settled (calls ++ calls') = (settled calls ++ settled calls')%list.
Proof. apply omap_app. Qed.

Lemma settled_listeners prop params handlers :
  settled (List.map (λ h, Listener h prop params) handlers) = [].
Proof. by induction handlers. Qed.

Lemma reply_calls_pending o this p :
  _resolvers this !! to_string (field o "id") = Some p →
  _rejectors this !! to_string (field o "id") = Some p →
  reply_calls o this
  = if truthy (field o "error")
    then [Reject p (read (field o "error") "message")]
    else [Resolve p (field o "result")].
Proof. intros H1 H2. unfold reply_calls. rewrite H1, H2. by destruct truthy. Qed.

(** One call settles at most one promise: one that was pending under its
    own key, no longer is, and only when the call delivers a reply under
    that key. *)
Lemma exec_op_settled o this p :
  pending_keyed this →
  p ∈ settled (exec_op o this).2 →
  settled (exec_op o this).2 = [p]
  ∧ _resolvers this !! to_string (VNum p) = Some p
  ∧ _resolvers (exec_op o this).1 !! to_string (VNum p) = None
  ∧ replies_to (to_string (VNum p)) o = true.
Proof.
  intros (Heq & H0 & Hk).
  destruct o as [namespace method params|message|name h]; cbn [exec_op].
  - destruct (send_cases namespace method params this) as [[e ->]| ->];
      cbn [fst snd]; by intros ?%elem_of_nil.
  - destruct (handle_cases message this)
      as [->|[(o & -> & Hid & ->)|(o & m & -> & Hid & Hm & ->)]];
      cbn [fst snd].
    + by intros ?%elem_of_nil.
    + destruct (_resolvers this !! to_string (field o "id")) as [q|] eqn:Hq.
      * rewrite (reply_calls_pending o this q) by (by rewrite <- ?Heq).
        destruct (Hk _ _ Hq) as [Hkey _].
        assert (settled (if truthy (field o "error")
                         then [Reject q (read (field o "error") "message")]
                         else [Resolve q (field o "result")]) = [q]) as ->
          by (destruct (truthy (field o "error")); reflexivity).
        intros ->%list_elem_of_singleton. split; [done|].
        rewrite <- Hkey. split; [done|]. split; [apply lookup_delete_eq|].
        cbn [replies_to get_prop]. fold (field o "id").
        by rewrite Hid, String.eqb_refl.
      * rewrite reply_calls_absent by (by rewrite <- ?Heq).
        by intros ?%elem_of_nil.
    + rewrite settled_listeners. by intros ?%elem_of_nil.
  - rewrite register_eq. cbn [fst snd]. by intros ?%elem_of_nil.
Qed.

Lemma exec_settled ops this :
  pending_keyed this →
  NoDup (settled (exec ops this).2)
  ∧ ∀ p, p ∈ settled (exec ops this).2 →
         (_resolvers this !! to_string (VNum p) = Some p ∨ (_id this < p)%Z)
         ∧ (p ≤ _id (exec ops this).1)%Z.
Proof.
  revert this. induction ops as [|o ops IH]; intros this Hkeyed.
  { split; [constructor|]. by intros p ?%elem_of_nil. }
  rewrite exec_cons. cbn [fst snd]. rewrite settled_app.
  destruct (IH _ (exec_op_keyed o this Hkeyed)) as [Hnd Hin].
  pose proof (exec_op_id_mono o this) as Hmono.
  pose proof (proj1 (exec_ids ops (exec_op o this).1)) as Hmono'.
  assert (∀ p, p ∈ settled (exec_op o this).2 →
               _resolvers this !! to_string (VNum p) = Some p
               ∧ (p ≤ _id this)%Z
               ∧ p ∉ settled (exec ops (exec_op o this).1).2) as Hfirst.
  { intros p Hp.
    destruct (exec_op_settled o this p Hkeyed Hp) as (_ & Hwas & Hgone & _).
    destruct (proj2 (proj2 Hkeyed) _ _ Hwas) as [_ Hle].
    split; [done|]. split; [lia|]. intros Hp'.
    destruct (Hin p Hp') as [[Hstill|Hlt] _]; [|lia].
    unfold promise in *. congruence. }
  split.
  - apply NoDup_app. split; [|split; [|done]].
    + destruct (settled (exec_op o this).2) as [|p l] eqn:Hs; [constructor|].
      destruct (exec_op_settled o this p Hkeyed) as [Hone _];
        [rewrite Hs; by left|].
      rewrite Hs in Hone. rewrite Hone. apply NoDup_singleton.
    + intros p Hp. by apply Hfirst.
  - intros p [Hp|Hp]%elem_of_app.
    + destruct (Hfirst p Hp) as (Hwas & Hle & _). split; [by left|lia].
    + destruct (Hin p Hp) as [[Hstill|Hlt] Hle]; (split; [|done]).
      * apply (exec_op_pending_origin o this _ _ Hstill).
      * right. lia.
Qed.

(** A pending entry outlives every call that is not a reply under its
    key. *)
Lemma exec_keeps_pending ops this k p :
  pending_keyed this →
  _resolvers this !! k = Some p →
  Forall (λ o, replies_to k o = false) ops →
  _resolvers (exec ops this).1 !! k = Some p
  ∧ p ∉ settled (exec ops this).2.
Proof.
  revert this. induction ops as [|o ops IH]; intros this Hkeyed Hp Hops.
  { split; [done|]. by intros ?%elem_of_nil. }
  apply Forall_cons in Hops as [Ho Hops]. rewrite exec_cons. cbn [fst snd].
  destruct (proj2 (proj2 Hkeyed) _ _ Hp) as [-> Hle].
  assert (_resolvers (exec_op o this).1 !! to_string (VNum p) = Some p)
    as Hp'.
  { destruct o as [namespace method params|message|name h]; cbn [exec_op].
    - destruct (send_cases namespace method params this) as [[e ->]| ->];
        cbn [fst snd]; [done|]. cbn.
      rewrite lookup_insert_ne; [done|].
      intros Heq%pretty_Z_inj. lia.
    - destruct (handle_cases message this)
        as [->|[(o & -> & Hid & ->)|(o & m & -> & Hid & Hm & ->)]];
        cbn [fst snd]; [done| |done]. cbn.
      rewrite lookup_delete_ne; [done|]. intros Heq.
      cbn [replies_to get_prop] in Ho. fold (field o "id") in Ho.
      rewrite Hid, Heq in Ho. cbn in Ho. by rewrite String.eqb_refl in Ho.
    - by rewrite register_eq. }
  destruct (IH _ (exec_op_keyed o this Hkeyed) Hp' Hops) as [Hfin Hnot].
  split; [done|]. rewrite settled_app. intros [Hin|Hin]%elem_of_app; [|done].
  destruct (exec_op_settled o this p Hkeyed Hin) as (_ & _ & _ & Hr).
  congruence.
Qed.

Lemma after_keyed protocol ops : pending_keyed (after protocol ops).
Proof. apply exec_keyed, new_keyed. Qed.

Lemma after_sent_ids protocol ops :
  (0 ≤ _id (after protocol ops))%Z
  ∧ sent_ids (calls_of protocol ops) = seqZ 1 (_id (after protocol ops)).
Proof.
  destruct (exec_ids ops (new_Dispatcher protocol)) as [Hle Hids].
  split; [done|]. unfold calls_of, after. rewrite Hids. cbn [new_Dispatcher _id].
  by rewrite Z.sub_0_r.
Qed.

Lemma split_first_dot method :
  "."%char ∈ String.list_ascii_of_string method →
  ∃ Domain name,
    method = Domain ++ "." ++ name
    ∧ "."%char ∉ String.list_ascii_of_string Domain.
Proof.
  induction method as [|a s IH]; cbn [String.list_ascii_of_string].
  - by intros ?%elem_of_nil.
  - intros Hin. destruct (decide (a = "."%char)) as [->|Hne].
    + exists "", s. split; [done|]. apply not_elem_of_nil.
    + apply elem_of_cons in Hin as [Heq|Hin]; [by destruct Hne|].
      destruct (IH Hin) as (D & name & -> & HD).
      exists (String a D), name. split; [done|].
      cbn [String.list_ascii_of_string]. rewrite not_elem_of_cons.
      split; [congruence|done].
Qed.

(** X12.  After any run, every entry of the resolver table is stored under
    the decimal rendering of the promise's request id, has its twin in the
    rejector table, and belongs to a request that was handed to the
    connection. *)
Theorem pending_entries_are_issued_ids protocol ops k p :
  _resolvers (after protocol ops) !! k = Some p →
  k = to_string (VNum p)
  ∧ _rejectors (after protocol ops) !! k = Some p
  ∧ p ∈ sent_ids (calls_of protocol ops).
Proof.
  intros Hp. destruct (after_keyed protocol ops) as (Heq & _ & Hk).
  destruct (Hk k p Hp) as [-> Hle]. split; [done|].
  split; [by rewrite <- Heq|].
  rewrite (proj2 (after_sent_ids protocol ops)), elem_of_seqZ. lia.
Qed.

Lemma pending_entries_are_issued_ids_witness :
  "1" = to_string (VNum 1)
  ∧ _rejectors (after page_protocol [OpSend "Page" "reload" VUndef]) !! "1"
    = Some 1
  ∧ 1 ∈ sent_ids (calls_of page_protocol [OpSend "Page" "reload" VUndef]).
Proof.
  apply (pending_entries_are_issued_ids page_protocol
           [OpSend "Page" "reload" VUndef] "1" 1).
  reflexivity.
Defined.

(** X13.  [send] never displaces a pending request: whatever it is called
    with, an entry of the resolver table is still there, unchanged, when it
    returns. *)
Theorem send_keeps_pending_entries protocol ops namespace method params k p :
  _resolvers (after protocol ops) !! k = Some p →
  _resolvers ((send namespace method params (after protocol ops)).1.2) !! k
  = Some p.
Proof.
  intros Hp. destruct (after_keyed protocol ops) as (_ & _ & Hk).
  destruct (Hk k p Hp) as [-> Hle].
  destruct (send_cases namespace method params (after protocol ops))
    as [[e ->]| ->]; cbn [fst snd]; [done|]. cbn.
  rewrite lookup_insert_ne; [done|]. intros Heq%pretty_Z_inj. lia.
Qed.

Lemma send_keeps_pending_entries_witness :
  _resolvers
    ((send "Page" "reload" VUndef
        (after page_protocol [OpSend "Page" "reload" VUndef])).1.2) !! "1"
  = Some 1.
Proof.
  apply (send_keeps_pending_entries page_protocol
           [OpSend "Page" "reload" VUndef] "Page" "reload" VUndef "1" 1).
  reflexivity.
Defined.

(** X14.  Along any run no promise is settled twice: the promises whose
    resolver or rejector is called are pairwise distinct, and each belongs
    to a request that was handed to the connection. *)
Theorem promises_settled_at_most_once protocol ops :
  NoDup (settled (calls_of protocol ops))
  ∧ settled (calls_of protocol ops) ⊆ sent_ids (calls_of protocol ops).
Proof.
  destruct (exec_settled ops _ (new_keyed protocol)) as [Hnd Hin].
  split; [done|]. intros p Hp. destruct (Hin p Hp) as [Horigin Hle].
  rewrite (proj2 (after_sent_ids protocol ops)), elem_of_seqZ.
  fold (after protocol ops) in Hle.
  destruct Horigin as [Hpend|Hlt]; [|cbn in Hlt; lia].
  cbn in Hpend. by rewrite lookup_empty in Hpend.
Qed.

(** X15.  Replies are correlated by id, in any order: once [send] has
    returned promise [p], and whatever happens next short of a reply under
    [p]'s key (other sends, replies to other ids, events, registrations),
    [p] is not settled; the first reply under its key then settles it, with
    the rejector when [error] is truthy and the resolver otherwise. *)
Theorem reply_reaches_its_request protocol ops namespace method params p
    ops' o :
  (send namespace method params (after protocol ops)).1.1 = Ok p →
  Forall (λ o, replies_to (to_string (VNum p)) o = false) ops' →
  truthy (field o "id") = true →
  to_string (field o "id") = to_string (VNum p) →
  (p ∉ settled (exec ops' (sent (after protocol ops))).2)
  ∧ ∃ this',
      _handleMessage (VObj o)
        (after protocol (ops ++ OpSend namespace method params :: ops'))
      = (Ok (VBool true), this',
         if truthy (field o "error")
         then [Reject p (read (field o "error") "message")]
         else [Resolve p (field o "result")]).
Proof.
  intros Hsend Hops Hid Hkey.
  assert (send namespace method params (after protocol ops)
          = (Ok (_id (after protocol ops) + 1), sent (after protocol ops),
             [ConnectionSend (_id (after protocol ops) + 1)
                (namespace ++ "." ++ method) (default_params params)])
          ∧ p = _id (after protocol ops) + 1) as [Hs ->].
  { destruct (send_cases namespace method params (after protocol ops))
      as [[e He]|Hs]; [by rewrite He in Hsend|].
    split; [done|]. rewrite Hs in Hsend. by injection Hsend. }
  set (this := after protocol ops) in *.
  assert (after protocol (ops ++ OpSend namespace method params :: ops')
          = (exec ops' (sent this)).1) as Hafter.
  { unfold after. rewrite exec_app, exec_cons. cbn [fst exec_op].
    fold (after protocol ops). fold this. by rewrite Hs. }
  destruct (exec_keeps_pending ops' (sent this)
              (to_string (VNum (_id this + 1))) (_id this + 1))
    as [Hpend Hnot];
    [apply sent_keyed, after_keyed|apply lookup_insert_eq|done|].
  split; [done|]. eexists. rewrite handle_reply by done.
  rewrite (reply_calls_pending o _ (_id this + 1)); [done| |].
  - by rewrite Hkey, Hafter.
  - rewrite <- after_pending. by rewrite Hkey, Hafter.
Qed.

Lemma reply_reaches_its_request_witness :
  ∃ this',
    _handleMessage (VObj [("id", VStr "1"); ("error", VObj [])])
      (after page_protocol
         ([] ++ OpSend "Page" "reload" VUndef
             :: [OpSend "Page" "reload" VUndef;
                 OpMessage (VObj [("id", VNum 2)])]))
    = (Ok (VBool true), this', [Reject 1 VUndef]).
Proof.
  destruct (reply_reaches_its_request page_protocol [] "Page" "reload" VUndef
              1 [OpSend "Page" "reload" VUndef;
                 OpMessage (VObj [("id", VNum 2)])]
              [("id", VStr "1"); ("error", VObj [])])
    as [_ [this' H]]; [reflexivity|compute_done|reflexivity|reflexivity|].
  exists this'. exact H.
Defined.

(** X16.  A message whose [id] is falsy (absent, 0, the empty string, null,
    false) is never taken for a reply: whatever else it carries, no promise
    is settled, nothing is sent, and the dispatcher, pending entries
    included, is left as it was. *)
Theorem falsy_id_never_settles this o :
  truthy (field o "id") = false →
  ∃ r calls,
    _handleMessage (VObj o) this = (r, this, calls)
    ∧ settled calls = [] ∧ sent_ids calls = [].
Proof.
  intros Hid. destruct (field o "method") as [| | | |m| |] eqn:Hm;
    try (exists (Throw TypeError), []; split; [|done];
         apply handle_no_method; [done|by rewrite Hm]).
  eexists _, _. split; [by apply (handle_event o m)|].
  split; [apply settled_listeners|apply sent_ids_listeners].
Qed.

Lemma falsy_id_never_settles_witness :
  ∃ r calls,
    _handleMessage
      (VObj [("id", VNum 0); ("result", VStr "late"); ("method", VStr "Page.x")])
      (after page_protocol [OpSend "Page" "reload" VUndef])
    = (r, after page_protocol [OpSend "Page" "reload" VUndef], calls)
    ∧ settled calls = [].
Proof.
  destruct (falsy_id_never_settles
              (after page_protocol [OpSend "Page" "reload" VUndef])
              [("id", VNum 0); ("result", VStr "late");
               ("method", VStr "Page.x")])
    as (r & calls & H & Hs & _); [reflexivity|].
  by exists r, calls.
Defined.

(** X17.  Two edges of the reply branch, for a reply whose id is pending: an
    [error] that is present but falsy (null, 0, false, the empty string)
    counts as no error, so the promise is resolved with [result]; an
    [error] that is truthy but not an object (a string, a number, true, an
    array) rejects the promise with undefined, since only
    [error.message] is passed on. *)
Theorem reply_error_edges protocol ops o p :
  truthy (field o "id") = true →
  _resolvers (after protocol ops) !! to_string (field o "id") = Some p →
  (∀ e, field o "error" ≠ VObj e) →
  ∃ this',
    _handleMessage (VObj o) (after protocol ops)
    = (Ok (VBool true), this',
       if truthy (field o "error") then [Reject p VUndef]
       else [Resolve p (field o "result")]).
Proof.
  intros Hid Hp Hobj. eexists. rewrite handle_reply by done.
  rewrite (reply_calls_pending o _ p); [|done|by rewrite <- after_pending].
  destruct (field o "error") as [| | | |s|l|e]; try done.
  by destruct (Hobj e).
Qed.

Lemma reply_error_edges_witness :
  (∃ this',
     _handleMessage
       (VObj [("id", VNum 1); ("error", VNull); ("result", VNum 7)])
       (after page_protocol [OpSend "Page" "reload" VUndef])
     = (Ok (VBool true), this', [Resolve 1 (VNum 7)]))
  ∧ (∃ this',
       _handleMessage (VObj [("id", VNum 1); ("error", VStr "boom")])
         (after page_protocol [OpSend "Page" "reload" VUndef])
       = (Ok (VBool true), this', [Reject 1 VUndef])).
Proof.
  split.
  - apply (reply_error_edges page_protocol [OpSend "Page" "reload" VUndef]
             [("id", VNum 1); ("error", VNull); ("result", VNum 7)] 1);
      [reflexivity|reflexivity|discriminate].
  - apply (reply_error_edges page_protocol [OpSend "Page" "reload" VUndef]
             [("id", VNum 1); ("error", VStr "boom")] 1);
      [reflexivity|reflexivity|discriminate].
Defined.

(** X18.  Cutting a method name at its first dot loses nothing: for every
    method that contains a dot, the derived domain has no dot and
    <domain>.<member> is the method again. *)
Theorem method_split_round_trip method :
  "."%char ∈ String.list_ascii_of_string method →
  derived_domain method ++ "." ++ derived_prop method = method
  ∧ "."%char ∉ String.list_ascii_of_string (derived_domain method).
Proof.
  intros Hin. destruct (split_first_dot method Hin) as (D & name & -> & HD).
  by destruct (derived_dotted D name HD) as [-> ->].
Qed.

Lemma method_split_round_trip_witness :
  derived_domain "Page.frame.loaded" ++ "." ++ derived_prop "Page.frame.loaded"
  = "Page.frame.loaded"
  ∧ "."%char ∉ String.list_ascii_of_string (derived_domain "Page.frame.loaded").
Proof. apply (method_split_round_trip "Page.frame.loaded"). compute_done. Defined.

(** X19.  Handling an inbound message, whatever it is, never sends on the
    connection, never moves the id counter and never touches the listener
    table, the protocol definition or the parameter index. *)
Theorem inbound_never_sends this message :
  sent_ids (_handleMessage message this).2 = []
  ∧ _id (_handleMessage message this).1.2 = _id this
  ∧ _domainListeners (_handleMessage message this).1.2 = _domainListeners this
  ∧ _protocol (_handleMessage message this).1.2 = _protocol this
  ∧ _parameterMap (_handleMessage message this).1.2 = _parameterMap this.
Proof.
  destruct (handle_cases message this)
    as [->|[(o & -> & Hid & ->)|(o & m & -> & Hid & Hm & ->)]];
    cbn [fst snd].
  - done.
  - by rewrite sent_ids_reply.
  - by rewrite sent_ids_listeners.
Qed.
